(** * Dynamic placeholder resolution of the cty conversion engine

    A shallow embedding of [convert/dynamic.go] (package [convert] of
    go-cty, vendored by the provider): [dynamicFixup], [dynamicPassthrough]
    and [dynamicReplace], together with the part of the [cty.Type] algebra
    these functions traverse. *)

From stdpp Require Import gmap strings list fin_maps.

Set Default Proof Using "Type".
Local Open Scope string_scope.
Local Open Scope nat_scope.

(** ** Outcomes of a Go call that may panic *)

(** The run-time faults the embedded code can raise.  [UnrecognizedType] is
    the explicit [panic("unrecognized type ...")] of [dynamicReplace]; the
    others are raised by the accessors of [cty.Type] when they are applied
    outside their domain. *)
Inductive fault : Type :=
  | UnrecognizedType
  | NotACollection
  | NotAnObject
  | NoSuchAttribute
  | NotATuple
  | IndexOutOfRange.

Inductive outcome (A : Type) : Type :=
  | Ret (a : A)
  | Panic (f : fault).
Global Arguments Ret {A} a.
Global Arguments Panic {A} f.

Global Instance outcome_ret : MRet outcome := λ A a, Ret a.
Global Instance outcome_bind : MBind outcome := λ A B k c,
  match c with
  | Ret a => k a
  | Panic f => Panic f
  end.
Global Instance outcome_fmap : FMap outcome := λ A B g c,
  match c with
  | Ret a => Ret (g a)
  | Panic f => Panic f
  end.

Definition returns {A} (c : outcome A) : Prop := ∃ a, c = Ret a.

(** ** The type algebra *)

Module Cty.

Inductive primitive : Type := Text | Number | Boolean.

Local Unset Elimination Schemes.

(** Modelled from the spec: the declaration of [cty.Type] is not part of
    the sources at hand.  The variants are those of the spec's data model
    (primitives, [List], [Set], [Map], [Tuple], [Object], [Capsule] and the
    dynamic placeholder), plus [NilType], the zero [cty.Type] the code
    compares against ("absent").  An object type is a finite map from
    attribute names to types, names unique, as in the data model; equality
    of types is then structural. *)
Inductive Ty : Type :=
  | NilType
  | DynamicPseudoType
  | Primitive (p : primitive)
  | Capsule (tag : string)
  | List (e : Ty)
  | Set_ (e : Ty)
  | Map (e : Ty)
  | Tuple (es : list Ty)
  | Object (attrs : gmap string Ty).
Local Set Elimination Schemes.

Definition String_ : Ty := Primitive Text.
Definition Number_ : Ty := Primitive Number.
Definition Bool_ : Ty := Primitive Boolean.

(** *** Classification *)

Definition IsPrimitiveType (t : Ty) : bool :=
  match t with Primitive _ => true | _ => false end.
Definition IsCapsuleType (t : Ty) : bool :=
  match t with Capsule _ => true | _ => false end.
Definition IsMapType (t : Ty) : bool :=
  match t with Map _ => true | _ => false end.
Definition IsObjectType (t : Ty) : bool :=
  match t with Object _ => true | _ => false end.
Definition IsSetType (t : Ty) : bool :=
  match t with Set_ _ => true | _ => false end.
Definition IsListType (t : Ty) : bool :=
  match t with List _ => true | _ => false end.
Definition IsTupleType (t : Ty) : bool :=
  match t with Tuple _ => true | _ => false end.

(** [t == cty.DynamicPseudoType] *)
Definition is_dynamic (t : Ty) : bool :=
  match t with DynamicPseudoType => true | _ => false end.

(** [t == cty.DynamicPseudoType || t == cty.NilType] *)
Definition is_dynamic_or_nil (t : Ty) : bool :=
  match t with DynamicPseudoType | NilType => true | _ => false end.

(** *** Accessors *)

(** Modelled from the spec: the accessors belong to the absent declaration
    of [cty.Type].  Each one answers on the variants it is meant for and
    panics elsewhere.  [ElementType] is the element type of a list, set or
    map. *)
Definition ElementType (t : Ty) : outcome Ty :=
  match t with
  | List e | Set_ e | Map e => Ret e
  | _ => Panic NotACollection
  end.

(** Modelled from the spec: the attributes of an object type. *)
Definition AttributeTypes (t : Ty) : outcome (gmap string Ty) :=
  match t with
  | Object attrs => Ret attrs
  | _ => Panic NotAnObject
  end.

(** Modelled from the spec: whether an object type has the attribute. *)
Definition HasAttribute (t : Ty) (name : string) : outcome bool :=
  match t with
  | Object attrs => Ret (bool_decide (is_Some (attrs !! name)))
  | _ => Panic NotAnObject
  end.

(** Modelled from the spec: the type of an attribute the object type has. *)
Definition AttributeType (t : Ty) (name : string) : outcome Ty :=
  match t with
  | Object attrs =>
      match attrs !! name with
      | Some a => Ret a
      | None => Panic NoSuchAttribute
      end
  | _ => Panic NotAnObject
  end.

(** Modelled from the spec: the element types of a tuple type, in order. *)
Definition TupleElementTypes (t : Ty) : outcome (list Ty) :=
  match t with
  | Tuple es => Ret es
  | _ => Panic NotATuple
  end.

(** Modelled from the spec: a tuple is "positionally addressed"; asking for
    a position the tuple does not have is a Go index fault, and asking a
    type that is no tuple panics too. *)
Definition TupleElementType (t : Ty) (idx : nat) : outcome Ty :=
  match t with
  | Tuple es =>
      match es !! idx with
      | Some e => Ret e
      | None => Panic IndexOutOfRange
      end
  | _ => Panic NotATuple
  end.

(** *** Size, and induction through the nested containers *)

Fixpoint ty_size (t : Ty) : nat :=
  match t with
  | List e | Set_ e | Map e => S (ty_size e)
  | Tuple es => S (foldr (λ e acc, ty_size e + acc) 0 es)
  | Object attrs => S (map_fold (λ _ a acc, ty_size a + acc) 0 attrs)
  | _ => 1
  end.

(** Does the dynamic placeholder occur nowhere in [t]? *)
Fixpoint placeholder_free (t : Ty) : bool :=
  match t with
  | DynamicPseudoType => false
  | List e | Set_ e | Map e => placeholder_free e
  | Tuple es => forallb placeholder_free es
  | Object attrs =>
      map_fold (λ _ a acc, acc && placeholder_free a) true attrs
  | _ => true
  end.

(** Does the absent type occur somewhere in [t]? *)
Fixpoint has_absent (t : Ty) : bool :=
  match t with
  | NilType => true
  | List e | Set_ e | Map e => has_absent e
  | Tuple es => existsb has_absent es
  | Object attrs =>
      map_fold (λ _ a acc, acc || has_absent a) false attrs
  | _ => false
  end.

End Cty.
Export Cty.

(** ** Loops of the source *)

(** [for attr, attrType := range attrs { outTypes[attr] = body attr attrType }]
    on the map [outTypes].  Go leaves the order of a [range] over a map
    open; the map that is built does not depend on it, only which panic is
    met first when several attributes panic. *)
Definition range_assign {A B} (body : string → A → outcome B)
    (attrs : gmap string A) (outTypes : gmap string B) : outcome (gmap string B) :=
  map_fold (λ attr attrType acc,
              outTypes ← acc;
              r ← body attr attrType;
              mret (<[attr := r]> outTypes))
           (mret outTypes) attrs.

(** What the loop leaves behind when it returns: [outTypes] holds, under
    each name of [attrs], what [body] returned for it. *)
Definition assigned {A B} (body : string → A → outcome B)
    (attrs : gmap string A) (outTypes : gmap string B) : Prop :=
  ∀ attr,
    match attrs !! attr with
    | Some attrType => ∃ r, body attr attrType = Ret r ∧ outTypes !! attr = Some r
    | None => outTypes !! attr = None
    end.

(** [for ix := start; ix < start + len(elems); ix++ { types = append(types, body ix elems[ix]) }] *)
Definition index_loop {A B} (body : nat → A → outcome B) : list A → nat → outcome (list B) :=
  fix loop (elems : list A) (ix : nat) : outcome (list B) :=
    match elems with
    | [] => mret []
    | e :: rest =>
        r ← body ix e;
        types ← loop rest (S ix);
        mret (r :: types)
    end.

(** What the loop leaves behind when it returns: [types] holds, at each
    position of [elems], what [body] returned there. *)
Definition collected {A B} (body : nat → A → outcome B)
    (start : nat) (elems : list A) (types : list B) : Prop :=
  length types = length elems ∧
  ∀ i e, elems !! i = Some e →
         ∃ r, body (start + i) e = Ret r ∧ types !! i = Some r.

(** [p] holds of every element of [elems] and the element of [others] at the
    same position, which has to exist. *)
Definition at_positions {A B} (p : A → B → bool) : list A → list B → bool :=
  fix positions (elems : list A) (others : list B) : bool :=
    match elems, others with
    | [], _ => true
    | e :: rest, o :: orest => p e o && positions rest orest
    | _ :: _, [] => false
    end.

(** ** [dynamicReplace] *)

Section Replace.

(** [unify] lives in another file of the package; it is a parameter here.
    Only its first result is used ([unifiedType, _ := unify(types, true)]). *)
Context {Conversion : Type}.
Variable unify : list Ty → bool → Ty * list Conversion.

(** The order in which [range in.AttributeTypes()] visits the attributes. *)
Variable range_attrs : gmap string Ty → list (string * Ty).

Definition attribute_types_in_range_order (attrs : gmap string Ty) : list Ty :=
  (range_attrs attrs).*2.

Fixpoint dynamicReplace (in_ out : Ty) {struct out} : outcome Ty :=
  if is_dynamic_or_nil in_ then mret out else
  match out with
  | DynamicPseudoType => mret in_
  | Primitive _ | Capsule _ => mret out
  | Map oelem =>
      let elemType := NilType in
      elemType ←
        (if IsMapType in_ then
           ielem ← ElementType in_;
           dynamicReplace ielem oelem
         else mret elemType);
      elemType ←
        (if IsObjectType in_ then
           iattrs ← AttributeTypes in_;
           let types := attribute_types_in_range_order iattrs in
           let unifiedType := (unify types true).1 in
           dynamicReplace unifiedType oelem
         else mret elemType);
      mret (Map elemType)
  | Object oattrs =>
      let outTypes : gmap string Ty := ∅ in
      outTypes ←
        (if IsMapType in_ then
           range_assign (λ attr attrType,
                           ielem ← ElementType in_;
                           dynamicReplace ielem attrType)
                        oattrs outTypes
         else mret outTypes);
      outTypes ←
        (if IsObjectType in_ then
           range_assign (λ attr attrType,
                           has ← HasAttribute in_ attr;
                           if negb has then mret attrType
                           else iattr ← AttributeType in_ attr;
                                dynamicReplace iattr attrType)
                        oattrs outTypes
         else mret outTypes);
      mret (Object outTypes)
  | Set_ oelem =>
      let elemType := NilType in
      elemType ←
        (if IsSetType in_ || IsListType in_ then
           ielem ← ElementType in_;
           dynamicReplace ielem oelem
         else mret elemType);
      elemType ←
        (if IsTupleType in_ then
           ielems ← TupleElementTypes in_;
           let unifiedType := (unify ielems true).1 in
           dynamicReplace unifiedType oelem
         else mret elemType);
      mret (Set_ elemType)
  | List oelem =>
      let elemType := NilType in
      elemType ←
        (if IsSetType in_ || IsListType in_ then
           ielem ← ElementType in_;
           dynamicReplace ielem oelem
         else mret elemType);
      elemType ←
        (if IsTupleType in_ then
           ielems ← TupleElementTypes in_;
           let unifiedType := (unify ielems true).1 in
           dynamicReplace unifiedType oelem
         else mret elemType);
      mret (List elemType)
  | Tuple oelems =>
      types ← index_loop (λ ix oelem,
                            ielem ← TupleElementType in_ ix;
                            dynamicReplace ielem oelem)
                         oelems 0;
      mret (Tuple types)
  | NilType => Panic UnrecognizedType
  end.

(** The correspondence between [in] and [out] that the traversal relies on,
    as the comments of the source state it: maps go with maps and objects,
    objects with objects and maps, sets and lists with sets, lists and
    tuples, tuples with tuples only (long enough to be addressed at every
    position of [out]); a source that is dynamic or absent goes with
    anything, nothing but such a source goes with an absent target, and a
    target without components asks nothing of the source.  Where the source
    is unified first (an object for a map, a tuple for a set or a list), the
    unified type is what has to go with the element type of the target. *)
Fixpoint compatible (in_ out : Ty) {struct out} : bool :=
  if is_dynamic_or_nil in_ then true else
  match out with
  | NilType => false
  | DynamicPseudoType | Primitive _ | Capsule _ => true
  | Map oelem =>
      match in_ with
      | Map ielem => compatible ielem oelem
      | Object iattrs =>
          compatible (unify (attribute_types_in_range_order iattrs) true).1 oelem
      | _ => false
      end
  | Object oattrs =>
      match in_ with
      | Map ielem =>
          map_fold (λ _ attrType acc, acc && compatible ielem attrType)
                   true oattrs
      | Object iattrs =>
          map_fold (λ attr attrType acc,
                      acc && match iattrs !! attr with
                             | Some iattr => compatible iattr attrType
                             | None => true
                             end)
                   true oattrs
      | _ => false
      end
  | Set_ oelem | List oelem =>
      match in_ with
      | Set_ ielem | List ielem => compatible ielem oelem
      | Tuple ielems => compatible (unify ielems true).1 oelem
      | _ => false
      end
  | Tuple oelems =>
      match in_ with
      | Tuple ielems =>
          at_positions (λ oelem ielem, compatible ielem oelem) oelems ielems
      | _ => false
      end
  end.

End Replace.


(** The variants [dynamicReplace] has a case for: every one but the absent
    type, which falls to the [default] of the switch. *)
Definition handled_variant (out : Ty) : bool :=
  match out with NilType => false | _ => true end.

(** [r] has the outermost variant of [out]: the same container kind, for a
    tuple the same arity, and a primitive or capsule is [out] itself. *)
Definition same_variant (out r : Ty) : Prop :=
  match out with
  | Map _ => ∃ e, r = Map e
  | Object _ => ∃ attrs, r = Object attrs
  | Set_ _ => ∃ e, r = Set_ e
  | List _ => ∃ e, r = List e
  | Tuple oelems => ∃ elems, r = Tuple elems ∧ length elems = length oelems
  | Primitive _ | Capsule _ => r = out
  | DynamicPseudoType => r = DynamicPseudoType
  | NilType => r = NilType
  end.

(** ** Paths, errors and [dynamicFixup] *)

(** Modelled from the spec: [cty.Path] and [cty.PathError] are declared
    outside the sources at hand.  A path is "an ordered sequence of steps,
    each either index into a sequence or key into a mapping or attribute of
    a structure"; an error is a plain one or one that carries a path. *)
Inductive PathStep : Type :=
  | IndexStep (ix : nat)
  | KeyStep (key : string)
  | GetAttrStep (name : string).

Abbreviation Path := (list PathStep).

Inductive error : Type :=
  | PlainError (msg : string)
  | PathError (cause : error) (path : Path).

Definition error_path (err : error) : Path :=
  match err with
  | PlainError _ => []
  | PathError _ path => path
  end.

Definition error_cause (err : error) : option error :=
  match err with
  | PlainError _ => None
  | PathError cause _ => Some cause
  end.

(** Modelled from the spec: [Path.NewError] is absent as well.  It wraps
    [err] in a path error whose path is the receiver followed by the path
    [err] already carries, so that "error paths compose across deferred
    boundaries". *)
Definition NewError (p : Path) (err : error) : error :=
  PathError err (p ++ error_path err).

Section Fixup.

(** [cty.Value], [cty.NilVal] and [Convert] are parameters: they are declared
    in other files of the package. *)
Context {Value : Type}.
Variable NilVal : Value.
Variable Convert : Value → Ty → Value * option error.

(** A conversion is [func(in cty.Value, path cty.Path) (cty.Value, error)]. *)
Definition conversion : Type := Value → Path → Value * option error.

Definition dynamicFixup (wantType : Ty) : conversion :=
  λ in_ path,
    let '(ret, err) := Convert in_ wantType in
    match err with
    | Some err => (NilVal, Some (NewError path err))
    | None => (ret, None)
    end.

Definition dynamicPassthrough : conversion :=
  λ in_ path, (in_, None).

End Fixup.

(** ** Stand-ins for the parameters, to run the embedding on examples *)

Module Sample.

(** Answers the first of the types, and the absent type when there is none. *)
Definition unify (types : list Ty) (unsafe : bool) : Ty * list unit :=
  (hd NilType types, []).

Definition range_attrs (attrs : gmap string Ty) : list (string * Ty) :=
  map_to_list attrs.

(** A unifier that does not look at the order of the types: the type itself
    when there is one only, the absent type otherwise. *)
Definition unify_single (types : list Ty) (unsafe : bool) : Ty * list unit :=
  match types with
  | [t] => (t, [])
  | _ => (NilType, [])
  end.

(** The attributes in the opposite order. *)
Definition range_attrs_rev (attrs : gmap string Ty) : list (string * Ty) :=
  reverse (map_to_list attrs).

Definition replace : Ty → Ty → outcome Ty := dynamicReplace unify range_attrs.

Definition compat : Ty → Ty → bool := compatible unify range_attrs.

(** Values are a type and, when known, a text; conversion to [Boolean]
    accepts the two tokens only. *)
Definition Value : Type := Ty * option string.

Definition NilVal : Value := (NilType, None).

Definition Convert (v : Value) (want : Ty) : Value * option error :=
  match want, v.2 with
  | Primitive Boolean, Some s =>
      if bool_decide (s = "true") || bool_decide (s = "false")
      then ((want, Some s), None)
      else (v, Some (PathError (PlainError "a bool is required") [IndexStep 1]))
  | _, _ => ((want, v.2), None)
  end.

End Sample.

(** ** Shapes of targets and sources, for the statements below *)

Global Instance primitive_eq_dec : EqDecision primitive.
Proof. solve_decision. Defined.

(** [t == cty.NilType] *)
Definition is_nil (t : Ty) : bool :=
  match t with NilType => true | _ => false end.

(** Does no tuple type occur in [t]? *)
Fixpoint tuple_free (t : Ty) : bool :=
  match t with
  | Tuple _ => false
  | List e | Set_ e | Map e => tuple_free e
  | Object attrs => map_fold (λ _ a acc, acc && tuple_free a) true attrs
  | _ => true
  end.

(** [out] is [in] with some of its parts replaced by the placeholder: the
    same variant at every level, the same arity for tuples and the same
    attribute names for objects, down to where [out] is the placeholder
    (which stands for anything but the absent type). *)
Fixpoint generalizes (out in_ : Ty) {struct out} : bool :=
  match out with
  | DynamicPseudoType => negb (is_nil in_)
  | NilType => is_nil in_
  | Primitive p =>
      match in_ with Primitive q => bool_decide (p = q) | _ => false end
  | Capsule tag =>
      match in_ with Capsule tag' => bool_decide (tag = tag') | _ => false end
  | List oelem =>
      match in_ with List ielem => generalizes oelem ielem | _ => false end
  | Set_ oelem =>
      match in_ with Set_ ielem => generalizes oelem ielem | _ => false end
  | Map oelem =>
      match in_ with Map ielem => generalizes oelem ielem | _ => false end
  | Tuple oelems =>
      match in_ with
      | Tuple ielems =>
          bool_decide (length ielems = length oelems)
          && at_positions (λ oelem ielem, generalizes oelem ielem) oelems ielems
      | _ => false
      end
  | Object oattrs =>
      match in_ with
      | Object iattrs =>
          bool_decide (dom iattrs = dom oattrs)
          && map_fold (λ attr attrType acc,
                         acc && match iattrs !! attr with
                                | Some iattr => generalizes attrType iattr
                                | None => false
                                end)
                      true oattrs
      | _ => false
      end
  end.

(** Does neither a tuple nor an object type occur in [t]? *)
Fixpoint collections_only (t : Ty) : bool :=
  match t with
  | Tuple _ | Object _ => false
  | List e | Set_ e | Map e => collections_only e
  | _ => true
  end.

(** The list target that corresponds to a set target. *)
Definition set_as_list (t : Ty) : Ty :=
  match t with Set_ e => List e | _ => t end.

(** * Properties *)

(** ** The type algebra *)

(** The handled variants are the cases of the switch. *)
Lemma handled_variant_cases out :
  handled_variant out =
    is_dynamic out
    || IsPrimitiveType out || IsCapsuleType out || IsMapType out
    || IsObjectType out || IsSetType out || IsListType out || IsTupleType out.
Proof. by destruct out. Qed.

Lemma ty_size_elem es e : e ∈ es → ty_size e < ty_size (Tuple es).
Proof.
  simpl. induction 1 as [e es|e e' es _ IH]; simpl; lia.
Qed.

Lemma ty_size_attr (attrs : gmap string Ty) name a :
  attrs !! name = Some a → ty_size a < ty_size (Object attrs).
Proof.
  cut (∀ n, n = map_fold (λ _ a acc, ty_size a + acc) 0 attrs →
            attrs !! name = Some a → ty_size a ≤ n).
  { intros H Hl. change (ty_size a < S (map_fold (λ _ a acc, ty_size a + acc) 0 attrs)).
    specialize (H _ eq_refl Hl). lia. }
  intros n ->. revert name a.
  apply (map_fold_weak_ind (λ r (m : gmap string Ty),
           ∀ name a, m !! name = Some a → ty_size a ≤ r)).
  - intros name a. by rewrite lookup_empty.
  - intros i x m r Hi IH name a.
    rewrite lookup_insert. case_decide; intros Hl; simplify_eq; [lia|].
    specialize (IH _ _ Hl). lia.
Qed.

(** Structural induction where the hypotheses reach through tuples and
    objects. *)
Lemma Ty_ind (P : Ty → Prop) :
  P NilType →
  P DynamicPseudoType →
  (∀ p, P (Primitive p)) →
  (∀ tag, P (Capsule tag)) →
  (∀ e, P e → P (List e)) →
  (∀ e, P e → P (Set_ e)) →
  (∀ e, P e → P (Map e)) →
  (∀ es, Forall P es → P (Tuple es)) →
  (∀ attrs, map_Forall (λ _, P) attrs → P (Object attrs)) →
  ∀ t, P t.
Proof.
  intros Hnil Hdyn Hprim Hcap Hlist Hset Hmap Htup Hobj t.
  remember (ty_size t) as n eqn:Hn.
  revert t Hn. induction n as [n IH] using lt_wf_ind. intros t ->.
  destruct t as [| |p|tag|e|e|e|es|attrs]; auto.
  - apply Hlist, (IH (ty_size e)); simpl; auto with lia.
  - apply Hset, (IH (ty_size e)); simpl; auto with lia.
  - apply Hmap, (IH (ty_size e)); simpl; auto with lia.
  - apply Htup, Forall_forall. intros e He.
    apply (IH (ty_size e)); [by apply ty_size_elem|done].
  - apply Hobj. intros name a Ha.
    apply (IH (ty_size a)); [by eapply ty_size_attr|done].
Qed.

(** ** The outcome monad *)

Lemma fmap_Ret_inv {A B} (g : A → B) (c : outcome A) b :
  g <$> c = Ret b ↔ ∃ a, c = Ret a ∧ b = g a.
Proof.
  destruct c as [a|f]; simpl; split.
  - intros [= <-]. eauto.
  - by intros (a' & [= <-] & ->).
  - done.
  - by intros (? & ? & _).
Qed.

Lemma fmap_Panic_inv {A B} (g : A → B) (c : outcome A) f :
  g <$> c = Panic f ↔ c = Panic f.
Proof. destruct c; simpl; split; congruence. Qed.

Lemma returns_fmap {A B} (g : A → B) (c : outcome A) :
  returns (g <$> c) ↔ returns c.
Proof.
  unfold returns. destruct c as [a|f]; simpl; split; intros [x Hx]; eauto; done.
Qed.

Lemma returns_Ret {A} (a : A) : returns (Ret a).
Proof. by exists a. Qed.

Lemma not_returns_Panic {A} f : ¬ returns (@Panic A f).
Proof. by intros [a ?]. Qed.

(** ** The loops *)

Section range_assign.
Context {A B : Type} (body : string → A → outcome B).

Lemma range_assign_inv attrs outTypes :
  range_assign body attrs ∅ = Ret outTypes → assigned body attrs outTypes.
Proof.
  revert outTypes. unfold range_assign.
  apply (map_fold_weak_ind (λ r (m : gmap string A),
           ∀ outTypes, r = Ret outTypes → assigned body m outTypes)).
  - intros outTypes [= <-] attr. by rewrite !lookup_empty.
  - intros i x m r Hi IH outTypes.
    destruct r as [acc|f]; simpl; [|done].
    destruct (body i x) as [ri|f] eqn:Hbody; simpl; [|done].
    intros [= <-] attr. specialize (IH _ eq_refl attr).
    rewrite !lookup_insert. case_decide; subst; eauto.
Qed.

Lemma range_assign_returns attrs :
  (∀ attr attrType, attrs !! attr = Some attrType → returns (body attr attrType)) →
  returns (range_assign body attrs ∅).
Proof.
  unfold range_assign.
  apply (map_fold_weak_ind (λ r (m : gmap string A),
           (∀ attr attrType, m !! attr = Some attrType →
                             returns (body attr attrType)) → returns r)).
  - intros _. apply returns_Ret.
  - intros i x m r Hi IH Hall.
    destruct IH as [acc ->].
    { intros attr attrType Hattr. apply Hall.
      rewrite lookup_insert_ne; [done|]. intros ->. congruence. }
    destruct (Hall i x) as [ri Hri]; [by rewrite lookup_insert_eq|].
    simpl. rewrite Hri. apply returns_Ret.
Qed.

Lemma range_assign_panic attrs f :
  range_assign body attrs ∅ = Panic f →
  ∃ attr attrType, attrs !! attr = Some attrType ∧ body attr attrType = Panic f.
Proof.
  unfold range_assign.
  apply (map_fold_weak_ind (λ r (m : gmap string A),
           r = Panic f →
           ∃ attr attrType, m !! attr = Some attrType ∧ body attr attrType = Panic f)).
  - done.
  - intros i x m r Hi IH.
    destruct r as [acc|f']; simpl.
    + destruct (body i x) as [ri|f'] eqn:Hbody; simpl; [done|].
      intros [= ->]. exists i, x. by rewrite lookup_insert_eq.
    + intros [= ->]. destruct (IH eq_refl) as (attr & attrType & Hattr & Hp).
      exists attr, attrType. split; [|done].
      rewrite lookup_insert_ne; [done|]. intros ->. congruence.
Qed.

(** The loop returns exactly the maps that [assigned] describes. *)
Lemma range_assign_Ret attrs outTypes :
  range_assign body attrs ∅ = Ret outTypes ↔ assigned body attrs outTypes.
Proof.
  split; [apply range_assign_inv|]. intros Hassigned.
  destruct (range_assign_returns attrs) as [outTypes' Hret].
  { intros attr attrType Hattr. specialize (Hassigned attr).
    rewrite Hattr in Hassigned. destruct Hassigned as (r & -> & _).
    apply returns_Ret. }
  rewrite Hret. f_equal. apply map_eq. intros attr.
  apply range_assign_inv in Hret. specialize (Hret attr).
  specialize (Hassigned attr). destruct (attrs !! attr).
  - destruct Hret as (r & Hr & ->), Hassigned as (r' & Hr' & ->). congruence.
  - congruence.
Qed.

End range_assign.

Lemma range_assign_ext {A B} (body body' : string → A → outcome B) attrs init :
  (∀ attr attrType, attrs !! attr = Some attrType →
                    body attr attrType = body' attr attrType) →
  range_assign body attrs init = range_assign body' attrs init.
Proof.
  unfold range_assign. rewrite !map_fold_foldr. intros Hext.
  assert (Forall (λ kv, body kv.1 kv.2 = body' kv.1 kv.2) (map_to_list attrs))
    as Hall.
  { apply Forall_forall. intros [attr attrType] Hin. simpl.
    by apply Hext, elem_of_map_to_list. }
  induction Hall as [|[attr attrType] l Hhd _ IH]; simpl in *; [done|].
  by rewrite IH, Hhd.
Qed.

Section index_loop.
Context {A B : Type} (body : nat → A → outcome B).

Lemma index_loop_Ret elems start types :
  index_loop body elems start = Ret types ↔ collected body start elems types.
Proof.
  revert start types. induction elems as [|e rest IH]; intros start types; simpl.
  - split.
    + intros [= <-]. split; [done|]. intros i e. by rewrite lookup_nil.
    + intros [Hlen _]. destruct types; [done|discriminate].
  - destruct (body start e) as [r|f] eqn:Hbody; simpl.
    + destruct (index_loop body rest (S start)) as [types'|f] eqn:Hloop; simpl.
      * apply IH in Hloop as [Hlen Hat]. split.
        -- intros [= <-]. split; [simpl; by rewrite Hlen|].
           intros [|i] e' Hi; simpl in *.
           ++ simplify_eq. rewrite Nat.add_0_r. eauto.
           ++ destruct (Hat i e' Hi) as (r' & Hr' & Hl).
              exists r'. by rewrite Nat.add_succ_r.
        -- intros [Hlen' Hat']. destruct types as [|r0 types]; [done|].
           destruct (Hat' 0 e eq_refl) as (r' & Hr' & [= ->]).
           rewrite Nat.add_0_r, Hbody in Hr'. injection Hr' as <-.
           do 2 f_equal. apply list_eq. intros i.
           destruct (rest !! i) as [e'|] eqn:Hi.
           ++ destruct (Hat i e' Hi) as (r1 & Hr1 & ->).
              destruct (Hat' (S i) e' Hi) as (r2 & Hr2 & Hl2).
              rewrite Nat.add_succ_r in Hr2. simpl in Hl2, Hr1. congruence.
           ++ apply lookup_ge_None in Hi. simpl in Hlen'.
              rewrite !(proj2 (lookup_ge_None _ _)); [done|lia..].
      * split; [done|]. intros [Hlen' Hat'].
        destruct types as [|r0 types]; [done|].
        assert (index_loop body rest (S start) = Ret types) as Hok;
          [|rewrite Hok in Hloop; discriminate].
        apply IH. split; [simpl in Hlen'; lia|].
        intros i e' Hi. destruct (Hat' (S i) e' Hi) as (r' & Hr' & Hl).
        exists r'. by rewrite Nat.add_succ_r in Hr'.
    + split; [done|]. intros [_ Hat].
      destruct (Hat 0 e eq_refl) as (r' & Hr' & _).
      rewrite Nat.add_0_r in Hr'. congruence.
Qed.

Lemma index_loop_returns elems start :
  (∀ i e, elems !! i = Some e → returns (body (start + i) e)) →
  returns (index_loop body elems start).
Proof.
  revert start. induction elems as [|e rest IH]; intros start Hall; simpl.
  - apply returns_Ret.
  - destruct (Hall 0 e eq_refl) as [r Hr]. rewrite Nat.add_0_r in Hr.
    rewrite Hr. simpl. destruct (IH (S start)) as [types ->].
    { intros i e' Hi. specialize (Hall (S i) e' Hi).
      by rewrite Nat.add_succ_r in Hall. }
    apply returns_Ret.
Qed.

Lemma index_loop_panic elems start f :
  index_loop body elems start = Panic f →
  ∃ i e, elems !! i = Some e ∧ body (start + i) e = Panic f.
Proof.
  revert start. induction elems as [|e rest IH]; intros start; simpl; [done|].
  destruct (body start e) as [r|f'] eqn:Hbody; simpl.
  - destruct (index_loop body rest (S start)) as [types'|f'] eqn:Hloop;
      simpl; [done|].
    intros [= ->]. destruct (IH _ Hloop) as (i & e' & Hi & Hp).
    exists (S i), e'. by rewrite Nat.add_succ_r.
  - intros [= ->]. exists 0, e. by rewrite Nat.add_0_r.
Qed.

End index_loop.

(** ** Folds of booleans over attributes *)

Lemma map_fold_andb_true {A} (p : string → A → bool) (attrs : gmap string A) :
  map_fold (λ attr a acc, acc && p attr a) true attrs = true ↔
  map_Forall (λ attr a, p attr a = true) attrs.
Proof.
  apply (map_fold_weak_ind (λ r (m : gmap string A),
           r = true ↔ map_Forall (λ attr a, p attr a = true) m)).
  - split; [intros _; apply map_Forall_empty|done].
  - intros i x m r Hi IH.
    rewrite andb_true_iff, IH, map_Forall_insert by done. tauto.
Qed.

Lemma map_fold_orb_true {A} (p : string → A → bool) (attrs : gmap string A) :
  map_fold (λ attr a acc, acc || p attr a) false attrs = true ↔
  ∃ attr a, attrs !! attr = Some a ∧ p attr a = true.
Proof.
  apply (map_fold_weak_ind (λ r (m : gmap string A),
           r = true ↔ ∃ attr a, m !! attr = Some a ∧ p attr a = true)).
  - split; [done|]. intros (attr & a & Hl & _). by rewrite lookup_empty in Hl.
  - intros i x m r Hi IH. rewrite orb_true_iff, IH. split.
    + intros [(attr & a & Hl & Hp)|Hp].
      * exists attr, a. split; [|done].
        rewrite lookup_insert_ne; [done|]. intros ->. congruence.
      * exists i, x. by rewrite lookup_insert_eq.
    + intros (attr & a & Hl & Hp). rewrite lookup_insert in Hl.
      case_decide; simplify_eq; eauto.
Qed.

(** ** [dynamicReplace], case by case *)

Section ReplaceFacts.
Context {Conversion : Type}.
Variable unify : list Ty → bool → Ty * list Conversion.
Variable range_attrs : gmap string Ty → list (string * Ty).

Local Abbreviation replace := (dynamicReplace unify range_attrs).
Local Abbreviation compat := (compatible unify range_attrs).
Local Abbreviation unified types := ((unify types true).1).
Local Abbreviation range_types := (attribute_types_in_range_order range_attrs).

(** Case analysis on the outcome of the one recursive call in the goal. *)
Local Ltac inner_call :=
  match goal with
  | |- context [dynamicReplace ?u ?r ?i ?o] => destruct (dynamicReplace u r i o)
  end.

Lemma replace_short in_ out :
  is_dynamic_or_nil in_ = true → replace in_ out = Ret out.
Proof. intros Hin. destruct out; simpl; by rewrite Hin. Qed.

Lemma replace_Dynamic in_ :
  is_dynamic_or_nil in_ = false → replace in_ DynamicPseudoType = Ret in_.
Proof. intros Hin. simpl. by rewrite Hin. Qed.

Lemma replace_Primitive in_ p : replace in_ (Primitive p) = Ret (Primitive p).
Proof. simpl. by destruct (is_dynamic_or_nil in_). Qed.

Lemma replace_Capsule in_ tag : replace in_ (Capsule tag) = Ret (Capsule tag).
Proof. simpl. by destruct (is_dynamic_or_nil in_). Qed.

Lemma replace_NilType in_ :
  is_dynamic_or_nil in_ = false → replace in_ NilType = Panic UnrecognizedType.
Proof. intros Hin. simpl. by rewrite Hin. Qed.

Lemma replace_Map in_ oelem :
  is_dynamic_or_nil in_ = false →
  replace in_ (Map oelem) =
    Map <$> match in_ with
            | Map ielem => replace ielem oelem
            | Object iattrs => replace (unified (range_types iattrs)) oelem
            | _ => Ret NilType
            end.
Proof.
  intros Hin. destruct in_; try discriminate; simpl; try done; by inner_call.
Qed.

Lemma replace_Set in_ oelem :
  is_dynamic_or_nil in_ = false →
  replace in_ (Set_ oelem) =
    Set_ <$> match in_ with
             | Set_ ielem | List ielem => replace ielem oelem
             | Tuple ielems => replace (unified ielems) oelem
             | _ => Ret NilType
             end.
Proof.
  intros Hin. destruct in_; try discriminate; simpl; try done; by inner_call.
Qed.

Lemma replace_List in_ oelem :
  is_dynamic_or_nil in_ = false →
  replace in_ (List oelem) =
    List <$> match in_ with
             | Set_ ielem | List ielem => replace ielem oelem
             | Tuple ielems => replace (unified ielems) oelem
             | _ => Ret NilType
             end.
Proof.
  intros Hin. destruct in_; try discriminate; simpl; try done; by inner_call.
Qed.

Lemma replace_Object in_ oattrs :
  is_dynamic_or_nil in_ = false →
  replace in_ (Object oattrs) =
    Object <$> match in_ with
               | Map ielem =>
                   range_assign (λ _ attrType, replace ielem attrType) oattrs ∅
               | Object iattrs =>
                   range_assign (λ attr attrType,
                                   match iattrs !! attr with
                                   | Some iattr => replace iattr attrType
                                   | None => Ret attrType
                                   end) oattrs ∅
               | _ => Ret ∅
               end.
Proof.
  intros Hin. destruct in_ as [| |p|tag|e|e|e|es|attrs]; try discriminate;
    try reflexivity.
  change (replace (Object attrs) (Object oattrs)) with
      (outTypes ← range_assign
         (λ attr attrType,
            has ← HasAttribute (Object attrs) attr;
            if negb has then mret attrType
            else iattr ← AttributeType (Object attrs) attr;
                 replace iattr attrType) oattrs ∅;
       Ret (Object outTypes)).
    rewrite (range_assign_ext _
               (λ attr attrType, match attrs !! attr with
                                 | Some iattr => replace iattr attrType
                                 | None => Ret attrType
                                 end)).
    + by destruct (range_assign _ oattrs ∅).
    + intros attr attrType _. simpl. by destruct (attrs !! attr).
Qed.

Lemma replace_Tuple in_ oelems :
  is_dynamic_or_nil in_ = false →
  replace in_ (Tuple oelems) =
    Tuple <$> index_loop (λ ix oelem,
                            ielem ← TupleElementType in_ ix;
                            replace ielem oelem) oelems 0.
Proof.
  intros Hin. simpl. rewrite Hin.
  by destruct (index_loop _ oelems 0).
Qed.


Lemma at_positions_true {A B} (p : A → B → bool) elems others :
  at_positions p elems others = true ↔
  ∀ i e, elems !! i = Some e → ∃ o, others !! i = Some o ∧ p e o = true.
Proof.
  revert others. induction elems as [|e rest IH]; intros others; simpl.
  - split; [|done]. intros _ i e. by rewrite lookup_nil.
  - destruct others as [|o orest].
    + split; [done|]. intros H. by destruct (H 0 e eq_refl) as (? & ? & _).
    + rewrite andb_true_iff, IH. split.
      * intros [Hp Hrest] [|i] e' Hi; simpl in *; simplify_eq; eauto.
      * intros H. split.
        -- by destruct (H 0 e eq_refl) as (? & [= <-] & ?).
        -- intros i e' Hi. apply (H (S i) e' Hi).
Qed.

Lemma at_positions_length {A B} (p : A → B → bool) elems others :
  at_positions p elems others = true → length elems ≤ length others.
Proof.
  revert others. induction elems as [|e rest IH]; intros [|o orest]; simpl;
    try done; try lia.
  rewrite andb_true_iff. intros [_ H%IH]. lia.
Qed.

Lemma TupleElementType_Tuple elems ix :
  TupleElementType (Tuple elems) ix =
    match elems !! ix with Some e => Ret e | None => Panic IndexOutOfRange end.
Proof. done. Qed.

Lemma TupleElementType_not_unrecognized in_ ix :
  TupleElementType in_ ix ≠ Panic UnrecognizedType.
Proof.
  destruct in_; simpl; try done. by destruct (_ !! ix).
Qed.

(** ** Compatible pairs make the traversal return *)

Lemma compatible_short in_ out :
  is_dynamic_or_nil in_ = true → compat in_ out = true.
Proof. intros Hin. destruct out; simpl; by rewrite Hin. Qed.

Lemma compatible_returns out : ∀ in_,
  compat in_ out = true → returns (replace in_ out).
Proof.
  induction out as [| |p|tag|oelem IH|oelem IH|oelem IH|oelems IH|oattrs IH]
    using Ty_ind; intros in_ Hc;
    (destruct (is_dynamic_or_nil in_) eqn:Hin;
     [rewrite replace_short by done; apply returns_Ret|]).
  - simpl in Hc. by rewrite Hin in Hc.
  - rewrite replace_Dynamic by done. apply returns_Ret.
  - rewrite replace_Primitive. apply returns_Ret.
  - rewrite replace_Capsule. apply returns_Ret.
  - rewrite replace_List by done. apply returns_fmap.
    destruct in_; try discriminate; simpl in Hc; auto.
  - rewrite replace_Set by done. apply returns_fmap.
    destruct in_; try discriminate; simpl in Hc; auto.
  - rewrite replace_Map by done. apply returns_fmap.
    destruct in_; try discriminate; simpl in Hc; auto.
  - rewrite replace_Tuple by done. apply returns_fmap.
    destruct in_ as [| | | | | | |ielems|]; try discriminate. simpl in Hc.
    apply index_loop_returns. intros i oelem Hi.
    rewrite at_positions_true in Hc.
    destruct (Hc i oelem Hi) as (ielem & Hie & Hcompat).
    rewrite TupleElementType_Tuple. simpl. rewrite Hie. simpl.
    rewrite Forall_forall in IH. apply IH; [|done].
    by eapply list_elem_of_lookup_2.
  - rewrite replace_Object by done. apply returns_fmap.
    destruct in_ as [| | | | | |ielem| |iattrs]; try discriminate;
      simpl in Hc; rewrite map_fold_andb_true in Hc;
      apply range_assign_returns; intros attr attrType Hattr;
      specialize (Hc attr attrType Hattr); simpl in Hc.
    + by eapply IH.
    + destruct (iattrs !! attr); [by eapply IH|apply returns_Ret].
Qed.

Lemma placeholder_free_Object oattrs :
  placeholder_free (Object oattrs) = true ↔
  map_Forall (λ _ a, placeholder_free a = true) oattrs.
Proof. apply (map_fold_andb_true (λ _ a, placeholder_free a)). Qed.

Lemma has_absent_Object oattrs :
  has_absent (Object oattrs) = true ↔
  ∃ attr a, oattrs !! attr = Some a ∧ has_absent a = true.
Proof. apply (map_fold_orb_true (λ _ a, has_absent a)). Qed.

(** ** Identity on targets without placeholder *)

(** C2: for compatible [in] and [out], when no placeholder occurs in [out]
    at any depth, [dynamicReplace in out] returns [out] itself. *)
Theorem dynamicReplace_placeholder_free out : ∀ in_,
  compat in_ out = true →
  placeholder_free out = true →
  replace in_ out = Ret out.
Proof.
  induction out as [| |p|tag|oelem IH|oelem IH|oelem IH|oelems IH|oattrs IH]
    using Ty_ind; intros in_ Hc Hfree;
    (destruct (is_dynamic_or_nil in_) eqn:Hin;
     [by rewrite replace_short|]).
  - simpl in Hc. by rewrite Hin in Hc.
  - done.
  - apply replace_Primitive.
  - apply replace_Capsule.
  - rewrite replace_List by done.
    destruct in_; try discriminate; simpl in Hc, Hfree; by rewrite IH.
  - rewrite replace_Set by done.
    destruct in_; try discriminate; simpl in Hc, Hfree; by rewrite IH.
  - rewrite replace_Map by done.
    destruct in_; try discriminate; simpl in Hc, Hfree; by rewrite IH.
  - rewrite replace_Tuple by done.
    destruct in_ as [| | | | | | |ielems|]; try discriminate. simpl in Hc, Hfree.
    rewrite at_positions_true in Hc. rewrite forallb_forall in Hfree.
    rewrite Forall_forall in IH.
    rewrite (proj2 (index_loop_Ret _ oelems 0 oelems)); [done|].
    split; [done|]. intros i oelem Hi.
    destruct (Hc i oelem Hi) as (ielem & Hie & Hcompat).
    exists oelem. split; [|done].
    rewrite TupleElementType_Tuple. simpl. rewrite Hie. simpl.
    assert (oelem ∈ oelems) as Hel by (by eapply list_elem_of_lookup_2).
    apply IH; [done..|]. by apply Hfree, list_elem_of_In.
  - rewrite replace_Object by done.
    rewrite placeholder_free_Object in Hfree.
    assert (∀ body : string → Ty → outcome Ty,
              (∀ attr attrType, oattrs !! attr = Some attrType →
                                body attr attrType = Ret attrType) →
              range_assign body oattrs ∅ = Ret oattrs) as Hsame.
    { intros body Hbody. apply range_assign_Ret. intros attr.
      destruct (oattrs !! attr) as [attrType|] eqn:Hattr; [|done].
      exists attrType. auto. }
    destruct in_ as [| | | | | |ielem| |iattrs]; try discriminate;
      simpl in Hc; rewrite map_fold_andb_true in Hc.
    + rewrite Hsame; [done|]. intros attr attrType Hattr.
      eapply IH; [done| |by eapply Hfree]. by apply (Hc attr attrType).
    + rewrite Hsame; [done|]. intros attr attrType Hattr.
      specialize (Hc attr attrType Hattr). simpl in Hc.
      destruct (iattrs !! attr); [|done].
      eapply IH; [done..|by eapply Hfree].
Qed.

(** ** Where the unrecognized-type panic comes from *)

Lemma unrecognized_has_absent out : ∀ in_,
  replace in_ out = Panic UnrecognizedType → has_absent out = true.
Proof.
  induction out as [| |p|tag|oelem IH|oelem IH|oelem IH|oelems IH|oattrs IH]
    using Ty_ind; intros in_;
    (destruct (is_dynamic_or_nil in_) eqn:Hin;
     [by rewrite replace_short|]).
  - done.
  - by rewrite replace_Dynamic.
  - by rewrite replace_Primitive.
  - by rewrite replace_Capsule.
  - rewrite replace_List, fmap_Panic_inv by done.
    destruct in_; try discriminate; simpl; eauto.
  - rewrite replace_Set, fmap_Panic_inv by done.
    destruct in_; try discriminate; simpl; eauto.
  - rewrite replace_Map, fmap_Panic_inv by done.
    destruct in_; try discriminate; simpl; eauto.
  - rewrite replace_Tuple, fmap_Panic_inv by done.
    intros (i & oelem & Hi & Hp)%index_loop_panic.
    assert (oelem ∈ oelems) as Hel by (by eapply list_elem_of_lookup_2).
    simpl. apply existsb_exists. exists oelem.
    split; [by apply list_elem_of_In|].
    rewrite Forall_forall in IH.
    destruct (TupleElementType in_ (0 + i)) as [ielem|f] eqn:Hie; simpl in Hp.
    + by eapply IH.
    + injection Hp as ->. by apply TupleElementType_not_unrecognized in Hie.
  - rewrite replace_Object, fmap_Panic_inv by done.
    rewrite has_absent_Object.
    destruct in_ as [| | | | | |ielem| |iattrs]; try discriminate.
    + intros (attr & attrType & Hattr & Hp)%range_assign_panic.
      exists attr, attrType. split; [done|]. by eapply IH.
    + intros (attr & attrType & Hattr & Hp)%range_assign_panic.
      exists attr, attrType. split; [done|].
      destruct (iattrs !! attr); [by eapply IH|done].
Qed.

(** ** The outermost variant of a result *)

Lemma returned_same_variant in_ out r :
  is_dynamic_or_nil in_ = false →
  out ≠ DynamicPseudoType →
  replace in_ out = Ret r → same_variant out r.
Proof.
  intros Hin Hout.
  destruct out as [| |p|tag|oelem|oelem|oelem|oelems|oattrs];
    unfold same_variant.
  - by rewrite replace_NilType.
  - done.
  - rewrite replace_Primitive. by intros [= <-].
  - rewrite replace_Capsule. by intros [= <-].
  - rewrite replace_List, fmap_Ret_inv by done. intros (e & _ & ->). eauto.
  - rewrite replace_Set, fmap_Ret_inv by done. intros (e & _ & ->). eauto.
  - rewrite replace_Map, fmap_Ret_inv by done. intros (e & _ & ->). eauto.
  - rewrite replace_Tuple, fmap_Ret_inv by done.
    intros (types & [Hlen _]%index_loop_Ret & ->). eauto.
  - rewrite replace_Object, fmap_Ret_inv by done. intros (m & _ & ->). eauto.
Qed.

(** ** The short circuit and the placeholder target *)

(** C3: for every concrete type [C] (neither the placeholder nor absent),
    [dynamicReplace C DynamicPseudoType] returns [C] exactly. *)
Theorem dynamicReplace_into_placeholder C :
  C ≠ DynamicPseudoType → C ≠ NilType →
  replace C DynamicPseudoType = Ret C.
Proof.
  intros Hdyn Hnil. apply replace_Dynamic. by destruct C.
Qed.

(** C4: when [in] is the placeholder or absent, [dynamicReplace in out]
    returns [out] exactly, whatever [out] is. *)
Theorem dynamicReplace_from_placeholder out :
  replace DynamicPseudoType out = Ret out ∧ replace NilType out = Ret out.
Proof. split; by apply replace_short. Qed.

(** ** Structured targets *)

(** C5: an object source against a map target gives the map of
    [dynamicReplace U elem], where [U] is the unsafe unification of the
    attribute types of the source, taken in the order the [range] met them;
    so [dynamicReplace (Object {a: Number}) (Map DynamicPseudoType)] is
    [Map Number], [unify] answering [Number] on the single [Number]. *)
Theorem dynamicReplace_Object_into_Map :
  (∀ attrs, range_attrs attrs ≡ₚ map_to_list attrs) →
  (∀ iattrs oelem,
     ∃ types, types ≡ₚ (map_to_list iattrs).*2 ∧
       replace (Object iattrs) (Map oelem) = Map <$> replace (unified types) oelem) ∧
  ((unify [Number_] true).1 = Number_ →
   replace (Object {[ "a" := Number_ ]}) (Map DynamicPseudoType) = Ret (Map Number_)).
Proof.
  intros Hrange. split.
  - intros iattrs oelem. exists (range_types iattrs). split.
    + unfold attribute_types_in_range_order. by rewrite Hrange.
    + by rewrite replace_Map.
  - intros Hunify. rewrite replace_Map by done.
    unfold attribute_types_in_range_order.
    specialize (Hrange {[ "a" := Number_ ]}).
    rewrite map_to_list_singleton in Hrange.
    apply Permutation_singleton_r in Hrange. rewrite Hrange. simpl.
    by rewrite Hunify.
Qed.

(** C6: an object source against an object target gives an object with the
    attribute names of the target; an attribute the source lacks keeps the
    type the target declares for it (placeholder included), an attribute
    both have holds [dynamicReplace] of the source's type and the target's,
    and the call returns exactly when all of these do. *)
Theorem dynamicReplace_Object_into_Object iattrs oattrs r :
  replace (Object iattrs) (Object oattrs) = Ret r ↔
  ∃ outTypes, r = Object outTypes ∧
    ∀ attr,
      match oattrs !! attr, iattrs !! attr with
      | Some attrType, None => outTypes !! attr = Some attrType
      | Some attrType, Some iattr =>
          ∃ t, replace iattr attrType = Ret t ∧ outTypes !! attr = Some t
      | None, _ => outTypes !! attr = None
      end.
Proof.
  rewrite (replace_Object (Object iattrs) oattrs eq_refl), fmap_Ret_inv.
  split.
  - intros (outTypes & H & ->). exists outTypes. split; [done|].
    apply range_assign_Ret in H. intros attr. specialize (H attr).
    destruct (oattrs !! attr) as [attrType|]; [|done].
    destruct H as (t & Ht & Hl). destruct (iattrs !! attr); [eauto|congruence].
  - intros (outTypes & -> & H). exists outTypes. split; [|done].
    apply range_assign_Ret. intros attr. specialize (H attr).
    destruct (oattrs !! attr) as [attrType|]; [|done].
    destruct (iattrs !! attr); [done|eauto].
Qed.

(** C7: a tuple source at least as long as a tuple target gives a tuple of
    the target's arity that holds, at each position, [dynamicReplace] of the
    two element types at that position; the call returns exactly when all of
    these do. *)
Theorem dynamicReplace_Tuple_into_Tuple ielems oelems r :
  length oelems ≤ length ielems →
  replace (Tuple ielems) (Tuple oelems) = Ret r ↔
  ∃ types, r = Tuple types ∧ length types = length oelems ∧
    ∀ i ielem oelem,
      ielems !! i = Some ielem → oelems !! i = Some oelem →
      ∃ t, replace ielem oelem = Ret t ∧ types !! i = Some t.
Proof.
  intros Hlen.
  rewrite (replace_Tuple (Tuple ielems) oelems eq_refl), fmap_Ret_inv.
  split.
  - intros (types & [Hl Hat]%index_loop_Ret & ->).
    exists types. split_and!; [done..|].
    intros i ielem oelem Hie Hoe.
    destruct (Hat i oelem Hoe) as (t & Ht & Hti).
    rewrite TupleElementType_Tuple in Ht. simpl in Ht. rewrite Hie in Ht. eauto.
  - intros (types & -> & Hl & Hat). exists types. split; [|done].
    apply index_loop_Ret. split; [done|]. intros i oelem Hoe.
    destruct (lookup_lt_is_Some_2 ielems i) as [ielem Hie].
    { apply lookup_lt_Some in Hoe. lia. }
    destruct (Hat i ielem oelem Hie Hoe) as (t & Ht & Hti).
    exists t. split; [|done].
    rewrite TupleElementType_Tuple. simpl. by rewrite Hie.
Qed.

(** ** Panics *)

(** C8, as the code has it: a call whose own target is none of the handled
    variants (and whose source is concrete) ends in the unrecognized-type
    panic; that panic is met only in such a call, the outer one or a nested
    one, so only when the absent type occurs in [out]; and for compatible
    [in] and [out] the call returns a type. *)
Theorem dynamicReplace_panic_sources in_ out :
  (handled_variant out = false → is_dynamic_or_nil in_ = false →
   replace in_ out = Panic UnrecognizedType) ∧
  (replace in_ out = Panic UnrecognizedType → has_absent out = true) ∧
  (compat in_ out = true → returns (replace in_ out)).
Proof.
  split_and!.
  - destruct out; try discriminate. intros _. apply replace_NilType.
  - apply unrecognized_has_absent.
  - apply compatible_returns.
Qed.

(** C9, as the code has it: for a concrete [in] and a target other than the
    placeholder, whatever the call returns has the outermost variant of
    [out] (a tuple of the same arity, a primitive or capsule as itself), and
    for compatible [in] and [out] it does return. *)
Theorem dynamicReplace_variant in_ out :
  in_ ≠ DynamicPseudoType → in_ ≠ NilType → out ≠ DynamicPseudoType →
  (∀ r, replace in_ out = Ret r → same_variant out r) ∧
  (compat in_ out = true → ∃ r, replace in_ out = Ret r ∧ same_variant out r).
Proof.
  intros Hdyn Hnil Hout.
  assert (is_dynamic_or_nil in_ = false) as Hin by (by destruct in_).
  split.
  - intros r. by apply returned_same_variant.
  - intros [r Hr]%compatible_returns. exists r. split; [done|].
    by eapply returned_same_variant.
Qed.

(** C10, as the code has it: for a concrete [in], a map target whose source
    is neither a map nor an object, and a set or list target whose source
    is none of set, list and tuple, give the container of the absent
    element type, without panic. *)
Theorem dynamicReplace_unrecognized_source in_ oelem :
  in_ ≠ DynamicPseudoType → in_ ≠ NilType →
  (IsMapType in_ = false → IsObjectType in_ = false →
   replace in_ (Map oelem) = Ret (Map NilType)) ∧
  (IsSetType in_ = false → IsListType in_ = false → IsTupleType in_ = false →
   replace in_ (Set_ oelem) = Ret (Set_ NilType) ∧
   replace in_ (List oelem) = Ret (List NilType)).
Proof.
  intros Hdyn Hnil. split.
  - intros Hmap Hobj. rewrite replace_Map by (by destruct in_).
    by destruct in_.
  - intros Hset Hlist Htup.
    rewrite replace_Set, replace_List by (by destruct in_).
    by destruct in_.
Qed.

End ReplaceFacts.

(** ** [dynamicFixup] *)

Section FixupFacts.
Context {Value : Type}.
Variable NilVal : Value.
Variable Convert : Value → Ty → Value * option error.

(** C1: the conversion [dynamicFixup T], applied to [v] at path [p], returns
    what [Convert v T] returns when that succeeds; when it fails with [err]
    the value returned is the nil value and the error is [err] wrapped
    under the caller's path: its path is [p] followed by the path [err]
    carried, and [err] itself is kept as the cause. *)
Theorem dynamicFixup_rewraps (T : Ty) (v : Value) (p : Path) :
  match Convert v T with
  | (ret, None) => dynamicFixup NilVal Convert T v p = (ret, None)
  | (_, Some err) =>
      dynamicFixup NilVal Convert T v p = (NilVal, Some (NewError p err)) ∧
      error_path (NewError p err) = (p ++ error_path err)%list ∧
      error_cause (NewError p err) = Some err
  end.
Proof.
  unfold dynamicFixup. destruct (Convert v T) as [ret [err|]]; auto.
Qed.

(** Wrapping twice lays the paths end to end, outermost first. *)
Lemma NewError_compose (p q : Path) (err : error) :
  error_path (NewError p (NewError q err)) = (p ++ q ++ error_path err)%list.
Proof. done. Qed.

Lemma dynamicPassthrough_id (v : Value) (p : Path) :
  dynamicPassthrough v p = (v, None).
Proof. done. Qed.

End FixupFacts.

(** ** The embedding at work *)

Module Examples.
Import Sample.

Example fixup_success :
  dynamicFixup NilVal Convert Bool_ (String_, Some "true") [GetAttrStep "enabled"]
  = ((Bool_, Some "true"), None).
Proof. reflexivity. Qed.

Example fixup_failure :
  dynamicFixup NilVal Convert Bool_ (String_, Some "yes") [GetAttrStep "enabled"]
  = (NilVal,
     Some (PathError (PathError (PlainError "a bool is required") [IndexStep 1])
                     [GetAttrStep "enabled"; IndexStep 1])).
Proof. reflexivity. Qed.

Example replace_object_into_map :
  replace (Object {[ "a" := Number_ ]}) (Map DynamicPseudoType) = Ret (Map Number_).
Proof. vm_compute. reflexivity. Qed.

Example replace_keeps_optional_placeholder :
  replace (Object {[ "a" := Number_ ]})
          (Object {[ "a" := DynamicPseudoType; "b" := DynamicPseudoType ]})
  = Ret (Object {[ "a" := Number_; "b" := DynamicPseudoType ]}).
Proof. vm_compute. reflexivity. Qed.

Example replace_tuple_positions :
  replace (Tuple [String_; List Number_; Bool_])
          (Tuple [DynamicPseudoType; List DynamicPseudoType])
  = Ret (Tuple [String_; List Number_]).
Proof. vm_compute. reflexivity. Qed.

Example replace_tuple_into_list :
  replace (Tuple [Number_; Number_]) (List DynamicPseudoType) = Ret (List Number_).
Proof. vm_compute. reflexivity. Qed.

Example replace_object_from_primitive :
  replace String_ (Object {[ "a" := DynamicPseudoType ]}) = Ret (Object ∅).
Proof. vm_compute. reflexivity. Qed.

Example replace_nested_absent :
  replace (List String_) (List NilType) = Panic UnrecognizedType.
Proof. vm_compute. reflexivity. Qed.

End Examples.

(** ** Instances of the theorems, and inputs on which claims fail *)

Lemma dynamicReplace_placeholder_free_witness :
  Sample.replace
    (Object {[ "a" := Tuple [String_; Number_]; "b" := Map Bool_ ]})
    (Object {[ "a" := List String_; "b" := Object {[ "x" := Bool_ ]};
               "c" := Number_ ]})
  = Ret (Object {[ "a" := List String_; "b" := Object {[ "x" := Bool_ ]};
                   "c" := Number_ ]}).
Proof.
  apply dynamicReplace_placeholder_free; vm_compute; reflexivity.
Defined.

Lemma dynamicReplace_into_placeholder_witness :
  Sample.replace (List String_) DynamicPseudoType = Ret (List String_).
Proof.
  apply dynamicReplace_into_placeholder; discriminate.
Defined.

Lemma dynamicReplace_Object_into_Map_witness :
  Sample.replace (Object {[ "a" := Number_ ]}) (Map DynamicPseudoType)
  = Ret (Map Number_).
Proof.
  apply (dynamicReplace_Object_into_Map Sample.unify Sample.range_attrs).
  - intros attrs. reflexivity.
  - reflexivity.
Defined.

Lemma dynamicReplace_Tuple_into_Tuple_witness :
  Sample.replace (Tuple [String_; List Number_; Bool_])
                 (Tuple [DynamicPseudoType; List DynamicPseudoType])
    = Ret (Tuple [String_; List Number_]) ↔
  ∃ types, Tuple [String_; List Number_] = Tuple types ∧
    length types = length [DynamicPseudoType; List DynamicPseudoType] ∧
    ∀ i ielem oelem,
      [String_; List Number_; Bool_] !! i = Some ielem →
      [DynamicPseudoType; List DynamicPseudoType] !! i = Some oelem →
      ∃ t, Sample.replace ielem oelem = Ret t ∧ types !! i = Some t.
Proof.
  apply dynamicReplace_Tuple_into_Tuple. simpl. lia.
Defined.

Lemma dynamicReplace_panic_sources_witness :
  returns (Sample.replace (Tuple [String_; List Number_])
                          (Tuple [DynamicPseudoType; Set_ DynamicPseudoType])).
Proof.
  apply (dynamicReplace_panic_sources Sample.unify Sample.range_attrs).
  vm_compute. reflexivity.
Defined.

Lemma dynamicReplace_variant_witness :
  ∃ r, Sample.replace (Map Number_)
                      (Object {[ "a" := DynamicPseudoType; "b" := String_ ]})
       = Ret r ∧
       same_variant (Object {[ "a" := DynamicPseudoType; "b" := String_ ]}) r.
Proof.
  apply dynamicReplace_variant; [discriminate..|vm_compute; reflexivity].
Defined.

Lemma dynamicReplace_unrecognized_source_witness :
  Sample.replace String_ (Map DynamicPseudoType) = Ret (Map NilType).
Proof.
  apply (dynamicReplace_unrecognized_source Sample.unify Sample.range_attrs);
    (discriminate || reflexivity).
Defined.

(** C8 fails as stated: these targets are handled variants, yet the call
    panics: a tuple target addresses a position the source lacks, and a
    nested call meets the absent type. *)
Lemma handled_variant_still_panics :
  handled_variant (Tuple [String_; Number_]) = true ∧
  Sample.replace (Tuple [String_]) (Tuple [String_; Number_])
    = Panic IndexOutOfRange ∧
  handled_variant (List NilType) = true ∧
  Sample.replace (List String_) (List NilType) = Panic UnrecognizedType.
Proof. vm_compute. auto. Qed.

(** C9 fails as stated: [in] is concrete and [out] is a tuple, and the call
    returns no tuple; likewise a list target whose element type is absent
    yields no list. *)
Lemma tuple_target_yields_no_tuple :
  Sample.replace String_ (Tuple [String_]) = Panic NotATuple ∧
  (¬ ∃ r, Sample.replace String_ (Tuple [String_]) = Ret r ∧
          same_variant (Tuple [String_]) r) ∧
  Sample.replace (List String_) (List NilType) = Panic UnrecognizedType.
Proof.
  split_and!; [vm_compute; reflexivity| |vm_compute; reflexivity].
  intros (r & Hr & _). vm_compute in Hr. discriminate.
Qed.

(** C10 fails as stated: the placeholder is neither a map nor an object, and
    the map target comes back with its own element type. *)
Lemma placeholder_source_keeps_element_type :
  IsMapType DynamicPseudoType = false ∧
  IsObjectType DynamicPseudoType = false ∧
  Sample.replace DynamicPseudoType (Map String_) = Ret (Map String_) ∧
  Sample.replace DynamicPseudoType (Map String_) ≠ Ret (Map NilType).
Proof. vm_compute. split_and!; (reflexivity || discriminate). Qed.

(** * Further properties of [dynamicReplace] *)

Lemma index_loop_ext {A B} (body body' : nat → A → outcome B) elems start :
  (∀ i e, elems !! i = Some e → body (start + i) e = body' (start + i) e) →
  index_loop body elems start = index_loop body' elems start.
Proof.
  revert start. induction elems as [|e rest IH]; intros start Hext; simpl; [done|].
  pose proof (Hext 0 e eq_refl) as Hhd. rewrite Nat.add_0_r in Hhd.
  rewrite Hhd, (IH (S start)); [done|].
  intros i e' Hi. specialize (Hext (S i) e' Hi).
  by rewrite Nat.add_succ_r in Hext.
Qed.

Lemma assigned_dom {A B} (body : string → A → outcome B)
    (attrs : gmap string A) (outTypes : gmap string B) :
  assigned body attrs outTypes → dom outTypes = dom attrs.
Proof.
  intros Hassigned. apply set_eq. intros attr. rewrite !elem_of_dom.
  specialize (Hassigned attr). destruct (attrs !! attr) as [attrType|].
  - destruct Hassigned as (r & _ & ->). split; eauto.
  - rewrite Hassigned. split; intros [? ?]; done.
Qed.

Lemma tuple_free_Object oattrs :
  tuple_free (Object oattrs) = true ↔
  map_Forall (λ _ a, tuple_free a = true) oattrs.
Proof. apply (map_fold_andb_true (λ _ a, tuple_free a)). Qed.

Section ReplaceMore.
Context {Conversion : Type}.
Variable unify : list Ty → bool → Ty * list Conversion.
Variable range_attrs : gmap string Ty → list (string * Ty).

Local Abbreviation replace := (dynamicReplace unify range_attrs).
Local Abbreviation unified types := ((unify types true).1).
Local Abbreviation range_types := (attribute_types_in_range_order range_attrs).

Local Ltac inner_call_more :=
  match goal with
  | |- context [dynamicReplace ?u ?r ?i ?o] => destruct (dynamicReplace u r i o)
  end.

(** Replacing a type into itself changes nothing. *)
Lemma replace_same t : replace t t = Ret t.
Proof.
  induction t as [| |p|tag|e IH|e IH|e IH|es IH|attrs IH] using Ty_ind;
    try (by apply replace_short).
  - apply replace_Primitive.
  - apply replace_Capsule.
  - by rewrite (replace_List _ _ (List e) e eq_refl), IH.
  - by rewrite (replace_Set _ _ (Set_ e) e eq_refl), IH.
  - by rewrite (replace_Map _ _ (Map e) e eq_refl), IH.
  - rewrite (replace_Tuple _ _ (Tuple es) es eq_refl).
    rewrite (proj2 (index_loop_Ret _ es 0 es)); [done|].
    split; [done|]. intros i e Hi. exists e. split; [|done].
    rewrite TupleElementType_Tuple. simpl. rewrite Hi. simpl.
    rewrite Forall_forall in IH. apply IH. by eapply list_elem_of_lookup_2.
  - rewrite (replace_Object _ _ (Object attrs) attrs eq_refl).
    rewrite (proj2 (range_assign_Ret _ attrs attrs)); [done|].
    intros attr. destruct (attrs !! attr) as [a|] eqn:Hattr; [|done].
    exists a. split; [|done]. by eapply IH.
Qed.

(** X1: [dynamicReplace t t] returns [t], for every type [t] (the absent
    type and types that contain it included). *)
Theorem dynamicReplace_reflexive t : replace t t = Ret t.
Proof. apply replace_same. Qed.


(** X3: the guards of the source suffice: [ElementType], [AttributeTypes],
    [HasAttribute], [AttributeType] and [TupleElementTypes] are never
    applied outside their domain.  A panic of [dynamicReplace] is the
    unrecognized-type panic or comes from [in.TupleElementType]. *)
Theorem dynamicReplace_panic_kinds out : ∀ in_ f,
  replace in_ out = Panic f →
  f = UnrecognizedType ∨ f = NotATuple ∨ f = IndexOutOfRange.
Proof.
  induction out as [| |p|tag|oelem IH|oelem IH|oelem IH|oelems IH|oattrs IH]
    using Ty_ind; intros in_ f;
    (destruct (is_dynamic_or_nil in_) eqn:Hin;
     [by rewrite replace_short|]).
  - rewrite replace_NilType by done. intros [= <-]. auto.
  - by rewrite replace_Dynamic.
  - by rewrite replace_Primitive.
  - by rewrite replace_Capsule.
  - rewrite replace_List, fmap_Panic_inv by done.
    destruct in_; try discriminate; eauto.
  - rewrite replace_Set, fmap_Panic_inv by done.
    destruct in_; try discriminate; eauto.
  - rewrite replace_Map, fmap_Panic_inv by done.
    destruct in_; try discriminate; eauto.
  - rewrite replace_Tuple, fmap_Panic_inv by done.
    intros (i & oelem & Hi & Hp)%index_loop_panic.
    rewrite Forall_forall in IH.
    destruct in_ as [| | | | | | |ielems|]; simpl in Hp; simplify_eq; auto.
    destruct (ielems !! i); simpl in Hp; simplify_eq; auto.
    eapply IH; [|done]. by eapply list_elem_of_lookup_2.
  - rewrite replace_Object, fmap_Panic_inv by done.
    destruct in_ as [| | | | | |ielem| |iattrs]; try discriminate.
    + intros (attr & attrType & Hattr & Hp)%range_assign_panic. by eapply IH.
    + intros (attr & attrType & Hattr & Hp)%range_assign_panic.
      destruct (iattrs !! attr); [by eapply IH|done].
Qed.

(** X4: a target in which neither a tuple nor the absent type occurs is
    resolved without panic, whatever the source is. *)
Theorem dynamicReplace_returns_without_tuples out : ∀ in_,
  tuple_free out = true → has_absent out = false →
  returns (replace in_ out).
Proof.
  induction out as [| |p|tag|oelem IH|oelem IH|oelem IH|oelems IH|oattrs IH]
    using Ty_ind; intros in_ Hfree Habsent;
    (destruct (is_dynamic_or_nil in_) eqn:Hin;
     [rewrite replace_short by done; apply returns_Ret|]); try done.
  - rewrite replace_Dynamic by done. apply returns_Ret.
  - rewrite replace_Primitive. apply returns_Ret.
  - rewrite replace_Capsule. apply returns_Ret.
  - rewrite replace_List by done. apply returns_fmap.
    destruct in_; try discriminate; first [by apply IH|apply returns_Ret].
  - rewrite replace_Set by done. apply returns_fmap.
    destruct in_; try discriminate; first [by apply IH|apply returns_Ret].
  - rewrite replace_Map by done. apply returns_fmap.
    destruct in_; try discriminate; first [by apply IH|apply returns_Ret].
  - rewrite replace_Object by done. apply returns_fmap.
    rewrite tuple_free_Object in Hfree.
    assert (∀ attr a, oattrs !! attr = Some a → has_absent a = false) as Hpresent.
    { intros attr a Hattr. destruct (has_absent a) eqn:Ha; [|done].
      rewrite <-Habsent. symmetry. apply has_absent_Object. eauto. }
    destruct in_ as [| | | | | |ielem| |iattrs]; try discriminate;
      try apply returns_Ret;
      apply range_assign_returns; intros attr attrType Hattr.
    + eapply IH; eauto.
    + destruct (iattrs !! attr); [eapply IH; eauto|apply returns_Ret].
Qed.

(** X5: an object target whose source is concrete and neither a map nor an
    object comes back as the empty object: the attributes of the target are
    dropped, without panic. *)
Theorem dynamicReplace_Object_from_other in_ oattrs :
  is_dynamic_or_nil in_ = false →
  IsMapType in_ = false → IsObjectType in_ = false →
  replace in_ (Object oattrs) = Ret (Object ∅).
Proof.
  intros Hin Hmap Hobj. rewrite replace_Object by done. by destruct in_.
Qed.

(** X6: a tuple target whose source is concrete and not a tuple panics at
    its first position; only the empty tuple target comes back, as the empty
    tuple. *)
Theorem dynamicReplace_Tuple_from_other in_ oelems :
  is_dynamic_or_nil in_ = false → IsTupleType in_ = false →
  replace in_ (Tuple oelems) =
    match oelems with
    | [] => Ret (Tuple [])
    | _ :: _ => Panic NotATuple
    end.
Proof.
  intros Hin Htup. rewrite replace_Tuple by done.
  destruct oelems as [|oelem rest]; [done|]. by destruct in_.
Qed.

(** X7: a tuple source shorter than the tuple target never yields a result:
    whenever the call returns, the source has an element for every position
    of the target. *)
Theorem dynamicReplace_Tuple_needs_positions ielems oelems r :
  replace (Tuple ielems) (Tuple oelems) = Ret r →
  length oelems ≤ length ielems.
Proof.
  rewrite (replace_Tuple _ _ (Tuple ielems) oelems eq_refl), fmap_Ret_inv.
  intros (types & [Hlen Hat]%index_loop_Ret & ->).
  destruct (decide (length oelems ≤ length ielems)) as [|Hshort]; [done|].
  destruct (lookup_lt_is_Some_2 oelems (length ielems)) as [oelem Hoe]; [lia|].
  destruct (Hat _ oelem Hoe) as (t & Ht & _).
  rewrite TupleElementType_Tuple in Ht. simpl in Ht.
  rewrite (proj2 (lookup_ge_None ielems (length ielems))) in Ht; [done|lia].
Qed.

(** X8: a map source against an object target gives an object with the
    attribute names of the target, each holding [dynamicReplace] of the
    map's element type and the attribute's declared type; the call returns
    exactly when all of these do. *)
Theorem dynamicReplace_Map_into_Object ielem oattrs r :
  replace (Map ielem) (Object oattrs) = Ret r ↔
  ∃ outTypes, r = Object outTypes ∧
    ∀ attr,
      match oattrs !! attr with
      | Some attrType =>
          ∃ t, replace ielem attrType = Ret t ∧ outTypes !! attr = Some t
      | None => outTypes !! attr = None
      end.
Proof.
  rewrite (replace_Object _ _ (Map ielem) oattrs eq_refl), fmap_Ret_inv.
  split.
  - intros (outTypes & H%range_assign_Ret & ->). eauto.
  - intros (outTypes & -> & H). exists outTypes. split; [|done].
    by apply range_assign_Ret.
Qed.

(** X9: with a map or an object as source, the object that comes back has
    exactly the attribute names of the target: none is lost and none of the
    source's is added. *)
Theorem dynamicReplace_Object_attribute_names in_ oattrs r :
  IsMapType in_ || IsObjectType in_ = true →
  replace in_ (Object oattrs) = Ret r →
  ∃ outTypes, r = Object outTypes ∧ dom outTypes = dom oattrs.
Proof.
  intros Hkind.
  rewrite replace_Object, fmap_Ret_inv by (by destruct in_).
  intros (outTypes & H & ->). exists outTypes. split; [done|].
  destruct in_; try discriminate;
    apply range_assign_Ret in H; by eapply assigned_dom.
Qed.

(** X10: an object source is consulted only at the attribute names of the
    target: two sources that agree there give the same outcome. *)
Theorem dynamicReplace_Object_extra_attributes iattrs iattrs' oattrs :
  (∀ attr, is_Some (oattrs !! attr) → iattrs !! attr = iattrs' !! attr) →
  replace (Object iattrs) (Object oattrs) =
  replace (Object iattrs') (Object oattrs).
Proof.
  intros Hagree.
  rewrite (replace_Object _ _ (Object iattrs) oattrs eq_refl),
          (replace_Object _ _ (Object iattrs') oattrs eq_refl).
  f_equal. apply range_assign_ext. intros attr attrType Hattr.
  by rewrite Hagree.
Qed.

(** X11: a set target and a list target resolve their element type in the
    same way: the outcome for [List elem] is the outcome for [Set elem] with
    the set read as a list, panics included. *)
Theorem dynamicReplace_Set_as_List in_ oelem :
  replace in_ (List oelem) = set_as_list <$> replace in_ (Set_ oelem).
Proof.
  destruct (is_dynamic_or_nil in_) eqn:Hin.
  - by rewrite !replace_short.
  - rewrite replace_List, replace_Set by done.
    by destruct in_; try discriminate; simpl; try inner_call_more.
Qed.

(** X12: for a target other than the placeholder itself, a set source and a
    list source with the same element type give the same outcome. *)
Theorem dynamicReplace_Set_source_as_List ielem out :
  out ≠ DynamicPseudoType →
  replace (Set_ ielem) out = replace (List ielem) out.
Proof.
  intros Hout. by destruct out.
Qed.

(** X13: when [out] is [in] with some parts replaced by the placeholder,
    [dynamicReplace in out] gives [in] back: the placeholders are filled
    with exactly the parts of [in] they stand for. *)
Theorem dynamicReplace_recovers_source out : ∀ in_,
  generalizes out in_ = true → replace in_ out = Ret in_.
Proof.
  induction out as [| |p|tag|oelem IH|oelem IH|oelem IH|oelems IH|oattrs IH]
    using Ty_ind; intros in_ Hgen; simpl in Hgen.
  - by destruct in_.
  - by destruct in_.
  - destruct in_ as [| |q| | | | | |]; try done.
    apply bool_decide_eq_true in Hgen as ->. apply replace_Primitive.
  - destruct in_ as [| | |tag'| | | | |]; try done.
    apply bool_decide_eq_true in Hgen as ->. apply replace_Capsule.
  - destruct in_ as [| | | |ielem| | | |]; try done.
    by rewrite (replace_List _ _ (List ielem) oelem eq_refl), IH.
  - destruct in_ as [| | | | |ielem| | |]; try done.
    by rewrite (replace_Set _ _ (Set_ ielem) oelem eq_refl), IH.
  - destruct in_ as [| | | | | |ielem| |]; try done.
    by rewrite (replace_Map _ _ (Map ielem) oelem eq_refl), IH.
  - destruct in_ as [| | | | | | |ielems|]; try done.
    apply andb_true_iff in Hgen as [Hlen%bool_decide_eq_true Hat].
    rewrite at_positions_true in Hat.
    rewrite (replace_Tuple _ _ (Tuple ielems) oelems eq_refl).
    rewrite (proj2 (index_loop_Ret _ oelems 0 ielems)); [done|].
    split; [done|]. intros i oelem Hi.
    destruct (Hat i oelem Hi) as (ielem & Hie & Hgen).
    exists ielem. split; [|done].
    rewrite TupleElementType_Tuple. simpl. rewrite Hie. simpl.
    rewrite Forall_forall in IH. apply IH; [|done].
    by eapply list_elem_of_lookup_2.
  - destruct in_ as [| | | | | | | |iattrs]; try done.
    apply andb_true_iff in Hgen as [Hdom%bool_decide_eq_true Hat].
    rewrite map_fold_andb_true in Hat.
    rewrite (replace_Object _ _ (Object iattrs) oattrs eq_refl).
    rewrite (proj2 (range_assign_Ret _ oattrs iattrs)); [done|].
    intros attr. destruct (oattrs !! attr) as [attrType|] eqn:Hattr.
    + specialize (Hat attr attrType Hattr). simpl in Hat.
      destruct (iattrs !! attr) as [iattr|]; [|done].
      exists iattr. split; [|done]. by eapply IH.
    + apply not_elem_of_dom. rewrite Hdom. by apply not_elem_of_dom.
Qed.

(** X14: the order in which Go's [range] visits the attributes of an object
    source does not show in the outcome, provided [unify] does not look at
    the order of the types it is given. *)
Theorem dynamicReplace_range_order
    (range_attrs' : gmap string Ty → list (string * Ty)) :
  (∀ types types', types ≡ₚ types' → unified types = unified types') →
  (∀ attrs, range_attrs attrs ≡ₚ range_attrs' attrs) →
  ∀ out in_, replace in_ out = dynamicReplace unify range_attrs' in_ out.
Proof.
  intros Hunify Hrange out.
  induction out as [| |p|tag|oelem IH|oelem IH|oelem IH|oelems IH|oattrs IH]
    using Ty_ind; intros in_;
    (destruct (is_dynamic_or_nil in_) eqn:Hin;
     [by rewrite !replace_short|]).
  - by rewrite !replace_NilType.
  - by rewrite !replace_Dynamic.
  - by rewrite !replace_Primitive.
  - by rewrite !replace_Capsule.
  - rewrite !replace_List by done. f_equal. by destruct in_.
  - rewrite !replace_Set by done. f_equal. by destruct in_.
  - rewrite !replace_Map by done. f_equal.
    destruct in_ as [| | | | | |ielem| |iattrs]; try done.
    rewrite IH. f_equal. apply Hunify.
    unfold attribute_types_in_range_order. by rewrite Hrange.
  - rewrite !replace_Tuple by done. f_equal. apply index_loop_ext.
    intros i oelem Hi. destruct (TupleElementType in_ (0 + i)); [|done].
    simpl. rewrite Forall_forall in IH. apply IH.
    by eapply list_elem_of_lookup_2.
  - rewrite !replace_Object by done. f_equal.
    destruct in_ as [| | | | | |ielem| |iattrs]; try done;
      apply range_assign_ext; intros attr attrType Hattr.
    + by eapply IH.
    + destruct (iattrs !! attr); [by eapply IH|done].
Qed.

End ReplaceMore.

(** ** Instances of the further properties *)

Lemma unify_single_permutation (types types' : list Ty) :
  types ≡ₚ types' →
  (Sample.unify_single types true).1 = (Sample.unify_single types' true).1.
Proof.
  intros Hperm. pose proof (Permutation_length Hperm) as Hlen.
  destruct types as [|t [|? ?]], types' as [|t' [|? ?]]; try done.
  by apply Permutation_singleton_l in Hperm as [= ->].
Qed.


Lemma dynamicReplace_panic_kinds_witness :
  NotATuple = UnrecognizedType ∨ NotATuple = NotATuple
  ∨ NotATuple = IndexOutOfRange.
Proof.
  apply (dynamicReplace_panic_kinds Sample.unify Sample.range_attrs
           (List (Tuple [DynamicPseudoType])) (List String_)).
  vm_compute. reflexivity.
Defined.

Lemma dynamicReplace_returns_without_tuples_witness :
  returns (Sample.replace
             (Tuple [String_])
             (Object {[ "a" := List DynamicPseudoType; "b" := Map String_ ]})).
Proof.
  apply dynamicReplace_returns_without_tuples; vm_compute; reflexivity.
Defined.

Lemma dynamicReplace_Object_from_other_witness :
  Sample.replace (List String_) (Object {[ "a" := DynamicPseudoType ]})
  = Ret (Object ∅).
Proof.
  apply dynamicReplace_Object_from_other; reflexivity.
Defined.

Lemma dynamicReplace_Tuple_from_other_witness :
  Sample.replace (List String_) (Tuple [DynamicPseudoType]) = Panic NotATuple.
Proof.
  apply (dynamicReplace_Tuple_from_other Sample.unify Sample.range_attrs
           (List String_) [DynamicPseudoType]); reflexivity.
Defined.

Lemma dynamicReplace_Tuple_needs_positions_witness :
  length [DynamicPseudoType] ≤ length [String_; Number_].
Proof.
  apply (dynamicReplace_Tuple_needs_positions Sample.unify Sample.range_attrs
           [String_; Number_] [DynamicPseudoType] (Tuple [String_])).
  vm_compute. reflexivity.
Defined.

Lemma dynamicReplace_Object_attribute_names_witness :
  ∃ outTypes,
    Object {[ "a" := Number_; "b" := String_ ]} = Object outTypes ∧
    dom outTypes = dom ({[ "a" := DynamicPseudoType; "b" := String_ ]}
                          : gmap string Ty).
Proof.
  apply (dynamicReplace_Object_attribute_names Sample.unify Sample.range_attrs
           (Map Number_)); [reflexivity|].
  vm_compute. reflexivity.
Defined.

Lemma dynamicReplace_Object_extra_attributes_witness :
  Sample.replace (Object {[ "a" := Number_ ]})
                 (Object {[ "a" := DynamicPseudoType; "b" := DynamicPseudoType ]})
  = Sample.replace (Object {[ "a" := Number_; "z" := Bool_ ]})
                   (Object {[ "a" := DynamicPseudoType; "b" := DynamicPseudoType ]}).
Proof.
  apply dynamicReplace_Object_extra_attributes.
  intros attr [t Ht].
  destruct (decide (attr = "a")) as [->|Ha]; [reflexivity|].
  destruct (decide (attr = "b")) as [->|Hb]; [reflexivity|].
  rewrite lookup_insert_ne, lookup_singleton_ne in Ht by done. discriminate.
Defined.

Lemma dynamicReplace_Set_source_as_List_witness :
  Sample.replace (Set_ Number_) (List DynamicPseudoType)
  = Sample.replace (List Number_) (List DynamicPseudoType).
Proof.
  apply dynamicReplace_Set_source_as_List. discriminate.
Defined.

Lemma dynamicReplace_recovers_source_witness :
  Sample.replace
    (Object {[ "a" := Tuple [String_; Capsule "handle"]; "b" := List Number_ ]})
    (Object {[ "a" := Tuple [String_; DynamicPseudoType];
               "b" := DynamicPseudoType ]})
  = Ret (Object {[ "a" := Tuple [String_; Capsule "handle"];
                   "b" := List Number_ ]}).
Proof.
  apply dynamicReplace_recovers_source. vm_compute. reflexivity.
Defined.

Lemma dynamicReplace_range_order_witness :
  dynamicReplace Sample.unify_single Sample.range_attrs
    (Object {[ "a" := Number_; "b" := String_ ]}) (Map DynamicPseudoType)
  = dynamicReplace Sample.unify_single Sample.range_attrs_rev
      (Object {[ "a" := Number_; "b" := String_ ]}) (Map DynamicPseudoType).
Proof.
  apply dynamicReplace_range_order.
  - apply unify_single_permutation.
  - intros attrs. symmetry. apply reverse_Permutation.
Defined.

(** ** What the result keeps of the target, and when [unify] matters *)

Lemma generalizes_refl t : generalizes t t = true.
Proof.
  induction t as [| |p|tag|e IH|e IH|e IH|es IH|attrs IH] using Ty_ind;
    simpl; try done.
  - by apply bool_decide_eq_true.
  - by apply bool_decide_eq_true.
  - rewrite bool_decide_eq_true_2 by done. simpl.
    apply at_positions_true. intros i e Hi. exists e. split; [done|].
    rewrite Forall_forall in IH. apply IH. by eapply list_elem_of_lookup_2.
  - rewrite bool_decide_eq_true_2 by done. simpl.
    apply map_fold_andb_true. intros attr a Hattr. simpl. rewrite Hattr.
    by eapply IH.
Qed.

Section ReplaceShape.
Context {Conversion : Type}.
Variable unify : list Ty → bool → Ty * list Conversion.
Variable range_attrs : gmap string Ty → list (string * Ty).

Local Abbreviation replace := (dynamicReplace unify range_attrs).
Local Abbreviation compat := (compatible unify range_attrs).

Lemma replaced_generalized out : ∀ in_ r,
  compat in_ out = true → replace in_ out = Ret r → generalizes out r = true.
Proof.
  induction out as [| |p|tag|oelem IH|oelem IH|oelem IH|oelems IH|oattrs IH]
    using Ty_ind; intros in_ r Hc;
    (destruct (is_dynamic_or_nil in_) eqn:Hin;
     [rewrite replace_short by done; intros [= <-]; apply generalizes_refl|]).
  - simpl in Hc. by rewrite Hin in Hc.
  - rewrite replace_Dynamic by done. intros [= <-]. by destruct in_.
  - rewrite replace_Primitive. intros [= <-]. apply generalizes_refl.
  - rewrite replace_Capsule. intros [= <-]. apply generalizes_refl.
  - rewrite replace_List, fmap_Ret_inv by done. intros (e & He & ->).
    destruct in_; try discriminate; simpl in Hc |- *; by eapply IH.
  - rewrite replace_Set, fmap_Ret_inv by done. intros (e & He & ->).
    destruct in_; try discriminate; simpl in Hc |- *; by eapply IH.
  - rewrite replace_Map, fmap_Ret_inv by done. intros (e & He & ->).
    destruct in_; try discriminate; simpl in Hc |- *; by eapply IH.
  - rewrite replace_Tuple, fmap_Ret_inv by done.
    intros (types & [Hlen Hat]%index_loop_Ret & ->).
    destruct in_ as [| | | | | | |ielems|]; try discriminate.
    simpl in Hc |- *. rewrite at_positions_true in Hc.
    rewrite bool_decide_eq_true_2 by done. simpl.
    apply at_positions_true. intros i oelem Hi.
    destruct (Hat i oelem Hi) as (t & Ht & Hti).
    destruct (Hc i oelem Hi) as (ielem & Hie & Hcompat).
    exists t. split; [done|].
    rewrite TupleElementType_Tuple in Ht. simpl in Ht. rewrite Hie in Ht.
    rewrite Forall_forall in IH. eapply IH; [|done..].
    by eapply list_elem_of_lookup_2.
  - rewrite replace_Object, fmap_Ret_inv by done.
    intros (outTypes & Hassigned & ->).
    destruct in_ as [| | | | | |ielem| |iattrs]; try discriminate;
      simpl in Hc |- *; rewrite map_fold_andb_true in Hc;
      apply range_assign_Ret in Hassigned;
      (rewrite bool_decide_eq_true_2 by (by eapply assigned_dom)); simpl;
      apply map_fold_andb_true; intros attr attrType Hattr; simpl;
      specialize (Hassigned attr); rewrite Hattr in Hassigned;
      destruct Hassigned as (t & Ht & ->);
      specialize (Hc attr attrType Hattr); simpl in Hc.
    + by eapply IH.
    + destruct (iattrs !! attr); [by eapply IH|].
      injection Ht as <-. apply generalizes_refl.
Qed.

(** X15: for compatible [in] and [out] the call returns a type that [out]
    generalizes: only placeholders of [out] are filled in; every other part
    of [out], every tuple arity and every attribute name is kept. *)
Theorem dynamicReplace_refines_target in_ out :
  compat in_ out = true →
  ∃ r, replace in_ out = Ret r ∧ generalizes out r = true.
Proof.
  intros Hc. destruct (compatible_returns _ _ _ _ Hc) as [r Hr].
  exists r. split; [done|]. by eapply replaced_generalized.
Qed.

(** X16: [unify] and the order of [range] are consulted only for an object
    or a tuple source: when neither occurs in [in], the outcome is the same
    whatever they are. *)
Theorem dynamicReplace_without_unify {Conversion' : Type}
    (unify' : list Ty → bool → Ty * list Conversion')
    (range_attrs' : gmap string Ty → list (string * Ty)) out : ∀ in_,
  collections_only in_ = true →
  replace in_ out = dynamicReplace unify' range_attrs' in_ out.
Proof.
  induction out as [| |p|tag|oelem IH|oelem IH|oelem IH|oelems IH|oattrs IH]
    using Ty_ind; intros in_ Hin_shape;
    (destruct (is_dynamic_or_nil in_) eqn:Hin;
     [by rewrite !replace_short|]).
  - by rewrite !replace_NilType.
  - by rewrite !replace_Dynamic.
  - by rewrite !replace_Primitive.
  - by rewrite !replace_Capsule.
  - rewrite !replace_List by done. f_equal.
    destruct in_; try discriminate; try done; by apply IH.
  - rewrite !replace_Set by done. f_equal.
    destruct in_; try discriminate; try done; by apply IH.
  - rewrite !replace_Map by done. f_equal.
    destruct in_; try discriminate; try done; by apply IH.
  - rewrite !replace_Tuple by done. f_equal. apply index_loop_ext.
    intros i oelem Hi. by destruct in_.
  - rewrite !replace_Object by done. f_equal.
    destruct in_ as [| | | | | |ielem| |iattrs]; try discriminate; try done.
    apply range_assign_ext. intros attr attrType Hattr. by eapply IH.
Qed.

End ReplaceShape.

Lemma dynamicReplace_refines_target_witness :
  ∃ r, Sample.replace
         (Object {[ "a" := Tuple [String_; Number_]; "b" := Map Bool_ ]})
         (Object {[ "a" := List DynamicPseudoType;
                    "b" := Object {[ "x" := DynamicPseudoType ]};
                    "c" := DynamicPseudoType ]}) = Ret r ∧
       generalizes
         (Object {[ "a" := List DynamicPseudoType;
                    "b" := Object {[ "x" := DynamicPseudoType ]};
                    "c" := DynamicPseudoType ]}) r = true.
Proof.
  apply dynamicReplace_refines_target. vm_compute. reflexivity.
Defined.

Lemma dynamicReplace_without_unify_witness :
  Sample.replace (Map (List Number_))
                 (Object {[ "a" := Set_ DynamicPseudoType; "b" := DynamicPseudoType ]})
  = dynamicReplace Sample.unify_single Sample.range_attrs_rev
      (Map (List Number_))
      (Object {[ "a" := Set_ DynamicPseudoType; "b" := DynamicPseudoType ]}).
Proof.
  apply (dynamicReplace_without_unify Sample.unify Sample.range_attrs).
  reflexivity.
Defined.
